(** * A Davis-Putnam style satisfiability procedure (main.py)

    Shallow embedding of [davis_putnam] and its helpers
    [find_pure_literals], [unit_propagate], [resolve_literal] and [negate].

    Python values are modelled as follows.
    - A [str] is the list of its code points; the negation mark is the
      single code point U+00AC.
    - A [frozenset] of literals is a [gset Lit], the working [set] of
      clauses a [gset Clause]; both are compared by value.
    - [next(iter(s))] depends on the hash order of the container, which
      the program does not control: it is a field of the class
      [IterOrder], and every statement holds for each instance of it.
    - [davis_putnam] returns [None], [False] or [True]: an [option bool].
    - [print_cnf] goes through whole containers: their iteration sequence
      is a field of the class [IterSeq]. *)

From stdpp Require Import base decidable numbers option list countable
  sets fin_sets gmap sorting.

Local Open Scope Z_scope.

(** ** Literals *)

Abbreviation char := N (only parsing).
Abbreviation Lit := (list N) (only parsing).
Abbreviation Clause := (gset (list N)) (only parsing).
Abbreviation Formula := (gset (gset (list N))) (only parsing).

(** The code point of the negation mark. *)
Definition NOT : char := 172%N.

(** [literal.startswith(NOT)] *)
Definition startswith_not (literal : Lit) : bool :=
  match literal with
  | c :: _ => bool_decide (c = NOT)
  | [] => false
  end.

(** [literal[1:]] *)
Definition tail1 (literal : Lit) : Lit := drop 1 literal.

(** [negate]: strips a leading mark, or adds one. *)
Definition negate (literal : Lit) : Lit :=
  if startswith_not literal then tail1 literal else NOT :: literal.

(** The reading of a string as a literal that [find_pure_literals] uses:
    the polarity is given by the first code point, the identifier is what
    follows the mark. *)
Definition polarity (literal : Lit) : bool := negb (startswith_not literal).

Definition ident (literal : Lit) : Lit :=
  if startswith_not literal then tail1 literal else literal.

(** A well-formed literal is an identifier with at most one mark in
    front of it: the identifier does not itself start with the mark. *)
Definition wf_lit (literal : Lit) : Prop :=
  startswith_not (ident literal) = false.

Definition wf_formula (cnf : Formula) : Prop :=
  ∀ clause, clause ∈ cnf → ∀ lit, lit ∈ clause → wf_lit lit.

(** ** The helpers *)

(** One round of the inner loop of [find_pure_literals]. *)
Definition scan_literal (literal : Lit) (acc : Clause * Clause)
    : Clause * Clause :=
  let '(literals, negations) := acc in
  if startswith_not literal
  then (literals, {[ tail1 literal ]} ∪ negations)
  else ({[ literal ]} ∪ literals, negations).

(** The two sets built by the loops of [find_pure_literals]. *)
Definition scan_cnf (cnf : Formula) : Clause * Clause :=
  set_fold (λ clause acc, set_fold scan_literal acc clause) (∅, ∅) cnf.

Definition find_pure_literals (cnf : Formula) : Clause :=
  let '(literals, negations) := scan_cnf cnf in
  (literals ∖ negations) ∪ set_map (cons NOT) (negations ∖ literals).

(** One round of the loop of [unit_propagate]. *)
Definition propagate_clause (unit_literals : Clause) (clause : Clause)
    (new_cnf : Formula) : Formula :=
  if decide (clause ∩ unit_literals ≠ ∅) then new_cnf
  else {[ filter (λ lit, negate lit ∉ unit_literals) clause ]} ∪ new_cnf.

Definition unit_propagate (cnf : Formula) (unit_literals : Clause) : Formula :=
  set_fold (propagate_clause unit_literals) ∅ cnf.

Definition resolve_literal (cnf : Formula) (literal : Lit) : Formula :=
  set_map (λ clause : Clause, clause ∖ {[ literal ]})
          (filter (λ clause : Clause, literal ∈ clause) cnf).

(** ** Iteration order *)

(** [next_iter s] is [next(iter(s))]: [None] stands for the
    [StopIteration] raised on an empty container. *)
Class IterOrder := {
  next_iter : ∀ `{Countable A}, gset A → option A;
  next_iter_elem : ∀ `{Countable A} (s : gset A) x,
    next_iter s = Some x → x ∈ s;
  next_iter_none : ∀ `{Countable A} (s : gset A),
    next_iter s = None → s = ∅
}.

(** One order: the first element of stdpp's enumeration. *)
Program Instance elements_order : IterOrder :=
  {| next_iter := λ A _ _ s, head (elements s) |}.
Next Obligation.
  intros A ? ? s x Hx. apply elem_of_elements.
  apply head_Some in Hx as [l ->]. left.
Qed.
Next Obligation.
  intros A ? ? s Hs. apply leibniz_equiv, elements_empty_inv.
  by apply head_None in Hs as ->.
Qed.

(** ** The decision loop *)

Abbreviation SAT := (Some true) (only parsing).
Abbreviation UNSAT := (Some false) (only parsing).
Abbreviation ABORTED := (@None bool) (only parsing).

Definition MAX_STEPS : Z := 10000.

(** What one pass through the body of [while True] does. *)
Inductive outcome :=
  | Return (result : option bool)
  | Continue (cnf : Formula) (steps : Z)
  | Raise.

#[global] Instance outcome_eq_dec : EqDecision outcome.
Proof. solve_decision. Defined.

Section loop.
Context {order : IterOrder}.

(** [{next(iter(clause)) for clause in cnf if len(clause) == 1}] *)
Definition unit_clauses (cnf : Formula) : Clause :=
  set_omap next_iter (filter (λ clause : Clause, size clause = 1%nat) cnf).

(** [{clause for clause in cnf
      if all(lit not in clause for lit in pure_literals)}] *)
Definition drop_pure (cnf : Formula) (pure_literals : Clause) : Formula :=
  filter (λ clause : Clause,
            set_Forall (λ lit, lit ∉ clause) pure_literals) cnf.

(** [next(iter(next(iter(cnf))))] *)
Definition choose_literal (cnf : Formula) : option Lit :=
  clause ← next_iter cnf; next_iter clause.

(** [pos | neg] for the chosen literal. *)
Definition eliminate (cnf : Formula) (lit : Lit) : Formula :=
  let pos := resolve_literal cnf lit in
  let neg := resolve_literal cnf (negate lit) in
  pos ∪ neg.

Definition loop_body (max_steps : Z) (cnf : Formula) (steps : Z) : outcome :=
  if decide (max_steps ≤ steps) then Return ABORTED else
  let pure_literals := find_pure_literals cnf in
  if decide (pure_literals ≠ ∅) then
    Continue (drop_pure cnf pure_literals) (steps + 1)
  else
  let units := unit_clauses cnf in
  if decide (units ≠ ∅) then
    Continue (unit_propagate cnf units) (steps + 1)
  else
  if decide (∅ ∈ cnf) then Return UNSAT else
  if decide (cnf = ∅) then Return SAT else
  match choose_literal cnf with
  | None => Raise
  | Some lit => Continue (eliminate cnf lit) (steps + 1)
  end.

(** How a call ends: with a result and the final value of [steps], with
    [StopIteration], or, in the model only, with the fuel used up. *)
Inductive run :=
  | Done (result : option bool) (steps : Z)
  | Raised
  | OutOfFuel.

#[global] Instance run_eq_dec : EqDecision run.
Proof. solve_decision. Defined.

Fixpoint while_loop (fuel : nat) (max_steps : Z) (cnf : Formula) (steps : Z)
    : run :=
  match fuel with
  | O => OutOfFuel
  | S fuel' =>
      match loop_body max_steps cnf steps with
      | Return result => Done result steps
      | Continue cnf' steps' => while_loop fuel' max_steps cnf' steps'
      | Raise => Raised
      end
  end.

(** [davis_putnam]: the loop tests [steps >= max_steps] first, so it
    runs its body at most [max_steps + 1] times. *)
Definition davis_putnam (cnf : Formula) (max_steps : Z) : run :=
  while_loop (S (Z.to_nat max_steps)) max_steps cnf 0.

(** The states at the start of the iterations of one call. *)
Inductive reaches (max_steps : Z) (cnf0 : Formula)
    : Formula → Z → Prop :=
  | reaches_start : reaches max_steps cnf0 cnf0 0
  | reaches_next cnf steps cnf' steps' :
      reaches max_steps cnf0 cnf steps →
      loop_body max_steps cnf steps = Continue cnf' steps' →
      reaches max_steps cnf0 cnf' steps'.
End loop.

(** ** Rendering a formula *)

(** [for x in s]: the whole iteration sequence of a container, of which
    [next(iter(s))] is the head. The program does not control it either. *)
Class IterSeq := {
  iter_list : ∀ `{Countable A}, gset A → list A;
  iter_list_perm : ∀ `{Countable A} (s : gset A), iter_list s ≡ₚ elements s
}.

(** Two sequences: stdpp's enumeration, forwards and backwards. *)
Program Instance elements_seq : IterSeq :=
  {| iter_list := λ A _ _ s, elements s |}.
Next Obligation. done. Qed.

Program Definition reverse_seq : IterSeq :=
  {| iter_list := λ A _ _ s, reverse (elements s) |}.
Next Obligation. intros A ? ? s. simpl. apply reverse_Permutation. Qed.

(** The order of [next(iter(s))] that comes with an iteration sequence. *)
Program Definition seq_order (seq : IterSeq) : IterOrder :=
  {| next_iter := λ A _ _ s, head (iter_list s) |}.
Next Obligation.
  intros seq A ? ? s x Hx. simpl in Hx.
  apply elem_of_elements. rewrite <- iter_list_perm.
  apply head_Some in Hx as [l ->]. left.
Qed.
Next Obligation.
  intros seq A ? ? s Hs. simpl in Hs. apply head_None in Hs.
  apply leibniz_equiv, elements_empty_inv.
  apply Permutation_nil_r. by rewrite <- Hs, iter_list_perm.
Qed.

(** Python compares strings code point by code point; a proper prefix
    comes first. *)
Fixpoint str_leb (s t : Lit) : bool :=
  match s, t with
  | [], _ => true
  | _ :: _, [] => false
  | a :: s', b :: t' =>
      if decide (a < b)%N then true
      else if decide (a = b) then str_leb s' t' else false
  end.

Definition str_le (s t : Lit) : Prop := str_leb s t = true.

#[global] Instance str_le_dec : RelDecision str_le.
Proof. intros s t. unfold str_le. apply _. Defined.

(** [sorted(xs)] on strings. Equal strings are the same string, so the
    ascending arrangement is unique and every sorting algorithm returns
    it. *)
Definition sorted (xs : list Lit) : list Lit := merge_sort str_le xs.

(** [sep.join(parts)] *)
Fixpoint join (sep : Lit) (parts : list Lit) : Lit :=
  match parts with
  | [] => []
  | [part] => part
  | part :: rest => part ++ sep ++ join sep rest
  end.

(** The separators [' ∧ '] and [' ∨ '] and the two brackets. *)
Definition AND_SEP : Lit := [32; 8743; 32]%N.
Definition OR_SEP : Lit := [32; 8744; 32]%N.
Definition LPAR : Lit := [40%N].
Definition RPAR : Lit := [41%N].

(** ['(' + ' ∨ '.join(sorted(clause)) + ')'], on the iteration sequence
    of the clause. *)
Definition print_clause (clause : list Lit) : Lit :=
  LPAR ++ join OR_SEP (sorted clause) ++ RPAR.

Definition print_cnf `{IterSeq} (cnf : Formula) : Lit :=
  join AND_SEP ((λ clause : Clause, print_clause (iter_list clause))
                  <$> iter_list cnf).

(** ** Notions the statements use *)

(** [occurs cnf l]: the literal is a member of some clause of the formula. *)
Definition occurs (cnf : Formula) (l : Lit) : Prop :=
  ∃ clause, clause ∈ cnf ∧ l ∈ clause.

(** The literal-elimination step is reached: no pure literal, no unit
    clause, no empty clause, and some clause left. *)
Definition elim_runs `{IterOrder} (cnf : Formula) : Prop :=
  find_pure_literals cnf = ∅ ∧ unit_clauses cnf = ∅ ∧ (∅ ∉ cnf) ∧ cnf ≠ ∅.

(** [sum(w(x) for x in X)] *)
Definition set_sum `{Countable T} (w : T → nat) (X : gset T) : nat :=
  sum_list_with w (elements X).

(** The number of clauses and of literal occurrences of a formula. *)
Definition clause_count (cnf : Formula) : nat := size cnf.

Definition literal_count (cnf : Formula) : nat := set_sum size cnf.

(** Truth assignments give a value to each identifier; a marked literal
    holds when its identifier is false. *)
Definition sat_lit (v : Lit → bool) (lit : Lit) : bool :=
  if startswith_not lit then negb (v (tail1 lit)) else v lit.

Definition sat_clause (v : Lit → bool) (clause : Clause) : Prop :=
  ∃ lit, lit ∈ clause ∧ sat_lit v lit = true.

Definition sat_formula (v : Lit → bool) (cnf : Formula) : Prop :=
  ∀ clause, clause ∈ cnf → sat_clause v clause.

Definition sat_units (v : Lit → bool) (unit_literals : Clause) : Prop :=
  ∀ lit, lit ∈ unit_literals → sat_lit v lit = true.

(** ** Example formulas *)

Definition A : Lit := [65%N].
Definition B : Lit := [66%N].
Definition C : Lit := [67%N].

(** The entry 'Trivial UNSAT' of [cnf_examples]. *)
Definition trivial_unsat : Formula := {[ {[ A ]}; {[ negate A ]} ]}.

(** The entry 'Simple SAT' of [cnf_examples]. *)
Definition simple_sat : Formula := {[ {[ A; B ]}; {[ negate A ]} ]}.

(** One clause that holds a literal and its negation. *)
Definition tautology : Formula := {[ {[ A; negate A ]} ]}.

(** A formula in which a clause is another clause with one literal less. *)
Definition subsumed : Formula :=
  {[ {[ A; B; C ]}; {[ A; B ]};
     {[ negate A; negate B ]}; {[ negate C; negate B ]} ]}.

(** ** Literals: negation, identifier, polarity *)

Lemma startswith_not_cons c l : startswith_not (c :: l) = bool_decide (c = NOT).
Proof. done. Qed.

Lemma startswith_not_true l :
  startswith_not l = true ↔ l = NOT :: tail1 l.
Proof.
  destruct l as [|c l]; simpl; [done|].
  rewrite bool_decide_eq_true. unfold tail1; simpl. rewrite drop_0.
  split; [by intros ->|congruence].
Qed.

Lemma negate_marked l : negate (NOT :: l) = l.
Proof. unfold negate, tail1; simpl. by rewrite drop_0. Qed.

Lemma negate_unmarked l : startswith_not l = false → negate l = NOT :: l.
Proof. unfold negate. by intros ->. Qed.

Lemma negate_length l :
  length (negate l) = S (length l) ∨ S (length (negate l)) = length l.
Proof.
  unfold negate. destruct (startswith_not l) eqn:E; [|by left].
  apply startswith_not_true in E. right.
  by rewrite (f_equal length E).
Qed.

Lemma negate_ne l : negate l ≠ l.
Proof.
  intros E. destruct (negate_length l) as [H|H]; rewrite E in H; lia.
Qed.

Lemma wf_lit_unmarked l : startswith_not l = false → wf_lit l.
Proof. unfold wf_lit, ident. intros E. by rewrite E. Qed.

Lemma wf_lit_marked l : wf_lit (NOT :: l) ↔ startswith_not l = false.
Proof. unfold wf_lit, ident, tail1; simpl. by rewrite drop_0. Qed.

Lemma negate_negate l : wf_lit l → negate (negate l) = l.
Proof.
  intros Hwf. destruct (startswith_not l) eqn:E.
  - apply startswith_not_true in E. rewrite E in Hwf |- *.
    apply wf_lit_marked in Hwf. rewrite negate_marked.
    by apply negate_unmarked.
  - rewrite (negate_unmarked l E). apply negate_marked.
Qed.

Lemma ident_negate l : wf_lit l → ident (negate l) = ident l.
Proof.
  intros Hwf. destruct (startswith_not l) eqn:E.
  - apply startswith_not_true in E. rewrite E in Hwf |- *.
    apply wf_lit_marked in Hwf. rewrite negate_marked.
    unfold ident, tail1; simpl. by rewrite Hwf, drop_0.
  - rewrite (negate_unmarked l E). unfold ident, tail1; simpl.
    by rewrite E, drop_0.
Qed.

Lemma polarity_negate l : wf_lit l → polarity (negate l) = negb (polarity l).
Proof.
  intros Hwf. unfold polarity. destruct (startswith_not l) eqn:E.
  - apply startswith_not_true in E. rewrite E in Hwf.
    apply wf_lit_marked in Hwf. rewrite E, negate_marked. by rewrite Hwf.
  - by rewrite (negate_unmarked l E).
Qed.

Lemma wf_lit_negate l : wf_lit l → wf_lit (negate l).
Proof.
  intros Hwf. unfold wf_lit. by rewrite ident_negate.
Qed.

(** Two well-formed literals on the same identifier are equal or
    opposite. *)
Lemma same_ident l x :
  wf_lit l → wf_lit x → ident x = ident l → x = l ∨ x = negate l.
Proof.
  intros Hl Hx. unfold ident.
  destruct (startswith_not l) eqn:El, (startswith_not x) eqn:Ex; intros E.
  - left. apply startswith_not_true in El, Ex. congruence.
  - right. by rewrite E; unfold negate; rewrite El.
  - right. apply startswith_not_true in Ex.
    rewrite (negate_unmarked l El). congruence.
  - by left.
Qed.

(** ** The pure-literal finder *)

Lemma scan_literal_fold (acc : Clause * Clause) (clause : Clause) x :
  (x ∈ (set_fold scan_literal acc clause).1 ↔
     x ∈ acc.1 ∨ (x ∈ clause ∧ startswith_not x = false)) ∧
  (x ∈ (set_fold scan_literal acc clause).2 ↔
     x ∈ acc.2 ∨ ∃ l, l ∈ clause ∧ startswith_not l = true ∧ x = tail1 l).
Proof.
  apply (set_fold_ind_L (λ (r : Clause * Clause) (s : Clause),
    (x ∈ r.1 ↔ x ∈ acc.1 ∨ (x ∈ s ∧ startswith_not x = false)) ∧
    (x ∈ r.2 ↔ x ∈ acc.2 ∨
       ∃ l, l ∈ s ∧ startswith_not l = true ∧ x = tail1 l))).
  - split; [set_solver|]. split; [by left|].
    intros [?|(l & []%not_elem_of_empty & _)]; done.
  - intros l s [lits negs] Hl [IH1 IH2]; simpl in *.
    unfold scan_literal. destruct (startswith_not l) eqn:E; simpl.
    + split.
      * rewrite IH1, elem_of_union, elem_of_singleton.
        naive_solver congruence.
      * rewrite elem_of_union, IH2, elem_of_singleton.
        setoid_rewrite elem_of_union. setoid_rewrite elem_of_singleton.
        naive_solver.
    + split.
      * rewrite !elem_of_union, IH1, elem_of_singleton. naive_solver.
      * rewrite IH2. setoid_rewrite elem_of_union.
        setoid_rewrite elem_of_singleton. naive_solver congruence.
Qed.

Lemma scan_cnf_spec (cnf : Formula) x :
  (x ∈ (scan_cnf cnf).1 ↔ occurs cnf x ∧ startswith_not x = false) ∧
  (x ∈ (scan_cnf cnf).2 ↔ occurs cnf (NOT :: x)).
Proof.
  unfold scan_cnf, occurs.
  apply (set_fold_ind_L (λ (r : Clause * Clause) (s : Formula),
    (x ∈ r.1 ↔ (∃ clause, clause ∈ s ∧ x ∈ clause) ∧ startswith_not x = false) ∧
    (x ∈ r.2 ↔ ∃ clause, clause ∈ s ∧ NOT :: x ∈ clause))).
  - set_solver.
  - intros clause s acc Hc [IH1 IH2].
    destruct (scan_literal_fold acc clause x) as [-> ->].
    rewrite IH1, IH2. setoid_rewrite elem_of_union.
    setoid_rewrite elem_of_singleton. split; [naive_solver|].
    split.
    + intros [[c [? ?]]|(l & ? & E & ->)]; [naive_solver|].
      apply startswith_not_true in E. exists clause. rewrite <- E. naive_solver.
    + intros (c & [->|?] & ?); [|naive_solver].
      right. exists (NOT :: x). split_and!; [done..|].
      unfold tail1; simpl; by rewrite drop_0.
Qed.

(** Membership in the result of [find_pure_literals], for any strings. *)
Lemma elem_of_find_pure_literals (cnf : Formula) l :
  l ∈ find_pure_literals cnf ↔
    (occurs cnf l ∧ startswith_not l = false ∧ ¬ occurs cnf (NOT :: l)) ∨
    (∃ x, l = NOT :: x ∧ occurs cnf l ∧
          ¬ (occurs cnf x ∧ startswith_not x = false)).
Proof.
  unfold find_pure_literals.
  pose proof (λ x, proj1 (scan_cnf_spec cnf x)) as H1.
  pose proof (λ x, proj2 (scan_cnf_spec cnf x)) as H2.
  destruct (scan_cnf cnf) as [literals negations]; simpl in *.
  rewrite elem_of_union, elem_of_difference, elem_of_map.
  setoid_rewrite elem_of_difference.
  rewrite H1, H2. setoid_rewrite H1. setoid_rewrite H2.
  naive_solver.
Qed.

Lemma find_pure_literals_occurs (cnf : Formula) l :
  l ∈ find_pure_literals cnf → occurs cnf l.
Proof. rewrite elem_of_find_pure_literals. naive_solver. Qed.

(** A string with two marks in front is always reported pure: the set
    [literals] holds no string that starts with the mark. *)
Lemma find_pure_literals_empty_wf (cnf : Formula) :
  find_pure_literals cnf = ∅ → wf_formula cnf.
Proof.
  intros Hpure clause Hc lit Hlit.
  destruct (startswith_not lit) eqn:E; [|by apply wf_lit_unmarked].
  apply startswith_not_true in E. rewrite E. apply wf_lit_marked.
  destruct (startswith_not (tail1 lit)) eqn:E'; [|done].
  assert (lit ∈ find_pure_literals cnf) as Hin; [|by rewrite Hpure in Hin].
  apply elem_of_find_pure_literals. right. exists (tail1 lit).
  split_and!; [done|by exists clause|]. intros [_ ?]. congruence.
Qed.

(** ** Unit clauses and unit propagation *)

Section unit_lemmas.
Context {order : IterOrder}.

Lemma next_iter_singleton `{Countable T} (x : T) :
  next_iter ({[ x ]} : gset T) = Some x.
Proof.
  destruct (next_iter ({[ x ]} : gset T)) as [y|] eqn:E.
  - apply next_iter_elem in E. f_equal. set_solver.
  - apply next_iter_none in E. set_solver.
Qed.

Lemma elem_of_unit_clauses (cnf : Formula) l :
  l ∈ unit_clauses cnf ↔ {[ l ]} ∈ cnf.
Proof.
  unfold unit_clauses. rewrite elem_of_set_omap.
  setoid_rewrite elem_of_filter. split.
  - intros (clause & [Hsz Hin] & Hnext).
    apply size_1_elem_of in Hsz as [y Hy]. apply leibniz_equiv in Hy.
    subst clause. rewrite next_iter_singleton in Hnext. congruence.
  - intros Hin. exists {[ l ]}. split_and!; [|done|].
    + apply size_singleton.
    + apply next_iter_singleton.
Qed.

Lemma unit_clauses_empty (cnf : Formula) :
  unit_clauses cnf = ∅ → ∀ clause, clause ∈ cnf → size clause ≠ 1%nat.
Proof.
  intros Hu clause Hin Hsz. apply size_1_elem_of in Hsz as [y Hy].
  apply leibniz_equiv in Hy. subst clause.
  apply elem_of_unit_clauses in Hin. by rewrite Hu in Hin.
Qed.
End unit_lemmas.

Lemma elem_of_unit_propagate (cnf : Formula) (unit_literals : Clause) c :
  c ∈ unit_propagate cnf unit_literals ↔
    ∃ clause, clause ∈ cnf ∧ clause ∩ unit_literals = ∅ ∧
      c = filter (λ lit, negate lit ∉ unit_literals) clause.
Proof.
  unfold unit_propagate.
  apply (set_fold_ind_L (λ (r s : Formula),
    c ∈ r ↔ ∃ clause, clause ∈ s ∧ clause ∩ unit_literals = ∅ ∧
      c = filter (λ lit, negate lit ∉ unit_literals) clause)).
  - split; [set_solver|]. by intros (? & []%not_elem_of_empty & _).
  - intros clause s r Hc IH. unfold propagate_clause.
    setoid_rewrite elem_of_union. setoid_rewrite elem_of_singleton.
    case_decide as Hd.
    + rewrite IH. naive_solver.
    + rewrite elem_of_union, elem_of_singleton, IH. naive_solver.
Qed.

Lemma elem_of_resolve_literal (cnf : Formula) literal c :
  c ∈ resolve_literal cnf literal ↔
    ∃ clause, clause ∈ cnf ∧ literal ∈ clause ∧ c = clause ∖ {[ literal ]}.
Proof.
  unfold resolve_literal. rewrite elem_of_map.
  setoid_rewrite elem_of_filter. naive_solver.
Qed.

(** ** Weighted sums over finite sets *)

Section set_sum.
Context `{Countable T}.
Implicit Types (w : T → nat) (X Y : gset T).

Lemma set_sum_empty w : set_sum w (∅ : gset T) = 0%nat.
Proof. unfold set_sum. by rewrite elements_empty. Qed.

Lemma set_sum_insert w x X :
  x ∉ X → set_sum w ({[ x ]} ∪ X) = (w x + set_sum w X)%nat.
Proof.
  intros Hx. unfold set_sum. by rewrite (elements_union_singleton X x Hx).
Qed.

Lemma set_sum_insert_le w x X :
  (set_sum w ({[ x ]} ∪ X) ≤ w x + set_sum w X)%nat.
Proof.
  destruct (decide (x ∈ X)) as [Hx|Hx].
  - replace ({[ x ]} ∪ X) with X by set_solver. lia.
  - rewrite set_sum_insert by done. lia.
Qed.

Lemma set_sum_disj_union w X Y :
  X ## Y → set_sum w (X ∪ Y) = (set_sum w X + set_sum w Y)%nat.
Proof.
  intros Hd. unfold set_sum.
  by rewrite (elements_disj_union X Y Hd), sum_list_with_app.
Qed.

Lemma set_sum_subseteq w X Y : X ⊆ Y → (set_sum w X ≤ set_sum w Y)%nat.
Proof.
  intros Hsub. rewrite (union_difference_L X Y Hsub).
  rewrite set_sum_disj_union by set_solver. lia.
Qed.

Lemma set_sum_union_le w X Y :
  (set_sum w (X ∪ Y) ≤ set_sum w X + set_sum w Y)%nat.
Proof.
  replace (X ∪ Y) with (X ∪ Y ∖ X).
  - rewrite set_sum_disj_union by set_solver.
    pose proof (set_sum_subseteq w (Y ∖ X) Y ltac:(set_solver)). lia.
  - apply set_eq. intros x. rewrite !elem_of_union, elem_of_difference.
    destruct (decide (x ∈ X)); naive_solver.
Qed.

Lemma set_sum_le w1 w2 X :
  (∀ x, x ∈ X → (w1 x ≤ w2 x)%nat) → (set_sum w1 X ≤ set_sum w2 X)%nat.
Proof.
  induction X as [|x X Hx IH] using set_ind_L; intros Hle.
  - by rewrite !set_sum_empty.
  - rewrite !set_sum_insert by done.
    pose proof (Hle x ltac:(set_solver)).
    pose proof (IH ltac:(set_solver)). lia.
Qed.

Lemma set_sum_lt w1 w2 X x :
  x ∈ X → (w1 x < w2 x)%nat →
  (∀ y, y ∈ X → (w1 y ≤ w2 y)%nat) → (set_sum w1 X < set_sum w2 X)%nat.
Proof.
  intros Hx Hlt Hle.
  rewrite (union_difference_L {[ x ]} X) by set_solver.
  rewrite !set_sum_insert by set_solver.
  pose proof (set_sum_le w1 w2 (X ∖ {[ x ]}) ltac:(set_solver)). lia.
Qed.

Lemma set_sum_const_1 X : set_sum (λ _, 1%nat) X = size X.
Proof.
  unfold set_sum, size, set_size; simpl.
  induction (elements X) as [|y l IH]; simpl; [done|]. by rewrite IH.
Qed.
End set_sum.

Lemma set_sum_map_le `{Countable T} (w : T → nat) (f : T → T) (X : gset T) :
  (set_sum w (set_map f X : gset T) ≤ set_sum (λ x, w (f x)) X)%nat.
Proof.
  induction X as [|x X Hx IH] using set_ind_L.
  - by rewrite set_map_empty, !set_sum_empty.
  - rewrite set_map_union_L, set_map_singleton_L.
    rewrite (set_sum_insert (λ x, w (f x)) x X Hx).
    pose proof (set_sum_insert_le w (f x) (set_map f X)). lia.
Qed.

Lemma size_set_map_le `{Countable T} (f : T → T) (X : gset T) :
  (size (set_map f X : gset T) ≤ size X)%nat.
Proof.
  rewrite <- !set_sum_const_1.
  apply (set_sum_map_le (λ _, 1%nat) f X).
Qed.

(** ** One iteration of the loop *)

Lemma unit_propagate_alt (cnf : Formula) (unit_literals : Clause) :
  unit_propagate cnf unit_literals =
    set_map (λ clause : Clause, filter (λ lit, negate lit ∉ unit_literals) clause)
            (filter (λ clause : Clause, clause ∩ unit_literals = ∅) cnf).
Proof.
  apply set_eq. intros c. rewrite elem_of_unit_propagate, elem_of_map.
  setoid_rewrite elem_of_filter. naive_solver.
Qed.

Section iteration.
Context {order : IterOrder}.

Lemma choose_literal_occurs (cnf : Formula) lit :
  choose_literal cnf = Some lit → occurs cnf lit.
Proof.
  unfold choose_literal. intros Hc.
  destruct (next_iter cnf) as [clause|] eqn:E; simplify_eq/=.
  exists clause. split; by apply next_iter_elem.
Qed.

Lemma choose_literal_is_Some (cnf : Formula) :
  cnf ≠ ∅ → ∅ ∉ cnf → is_Some (choose_literal cnf).
Proof.
  intros Hne Hemp. unfold choose_literal.
  destruct (next_iter cnf) as [clause|] eqn:E; simpl.
  - destruct (next_iter clause) as [lit|] eqn:E'; [by eexists|].
    apply next_iter_none in E'. subst clause.
    by apply next_iter_elem in E.
  - by apply next_iter_none in E.
Qed.

(** The three ways in which the body goes on to the next iteration. *)
Lemma loop_body_Continue (max_steps : Z) (cnf : Formula) (steps : Z)
    (cnf' : Formula) (steps' : Z) :
  loop_body max_steps cnf steps = Continue cnf' steps' →
  steps < max_steps ∧ steps' = steps + 1 ∧
  ((find_pure_literals cnf ≠ ∅ ∧
      cnf' = drop_pure cnf (find_pure_literals cnf)) ∨
   (find_pure_literals cnf = ∅ ∧ unit_clauses cnf ≠ ∅ ∧
      cnf' = unit_propagate cnf (unit_clauses cnf)) ∨
   (elim_runs cnf ∧
      ∃ lit, choose_literal cnf = Some lit ∧ cnf' = eliminate cnf lit)).
Proof.
  unfold loop_body, elim_runs. intros Hb.
  repeat case_decide; try done.
  - simplify_eq. split; [lia|]. split; [done|]. by left.
  - simplify_eq. split; [lia|]. split; [done|]. right; left. done.
  - destruct (choose_literal cnf) as [lit|] eqn:E; simplify_eq.
    split; [lia|]. split; [done|]. right; right.
    split; [done|by exists lit].
Qed.

Lemma drop_pure_size (cnf : Formula) :
  find_pure_literals cnf ≠ ∅ →
  (size (drop_pure cnf (find_pure_literals cnf)) < size cnf)%nat.
Proof.
  intros [l Hl]%set_choose_L. apply subset_size.
  destruct (find_pure_literals_occurs cnf l Hl) as (clause & Hin & Hlc).
  unfold drop_pure. split.
  - intros c. rewrite elem_of_filter. naive_solver.
  - intros Hsub. specialize (Hsub clause Hin).
    apply elem_of_filter in Hsub as [Hall _]. by apply (Hall l).
Qed.

Lemma unit_propagate_size (cnf : Formula) :
  unit_clauses cnf ≠ ∅ →
  (size (unit_propagate cnf (unit_clauses cnf)) < size cnf)%nat.
Proof.
  intros [l Hl]%set_choose_L. rewrite unit_propagate_alt.
  eapply Nat.le_lt_trans; [apply size_set_map_le|].
  apply subset_size. split.
  - intros c. rewrite elem_of_filter. naive_solver.
  - intros Hsub. pose proof Hl as Hin. apply elem_of_unit_clauses in Hin.
    specialize (Hsub _ Hin). apply elem_of_filter in Hsub as [Hd _].
    set_solver.
Qed.

Lemma eliminate_literal_count (cnf : Formula) lit :
  occurs cnf lit →
  (∀ clause, clause ∈ cnf → lit ∈ clause → negate lit ∉ clause) →
  (literal_count (eliminate cnf lit) < literal_count cnf)%nat.
Proof.
  intros (c0 & Hc0 & Hlit) Htaut. unfold literal_count, eliminate, resolve_literal.
  set (S1 := filter (λ clause : Clause, lit ∈ clause) cnf).
  set (S2 := filter (λ clause : Clause, negate lit ∈ clause) cnf).
  eapply Nat.le_lt_trans; [apply set_sum_union_le|].
  pose proof (set_sum_map_le size (λ clause : Clause, clause ∖ {[ lit ]}) S1) as H1.
  pose proof (set_sum_map_le size
    (λ clause : Clause, clause ∖ {[ negate lit ]}) S2) as H2.
  assert (set_sum (λ clause : Clause, size (clause ∖ {[ lit ]})) S1
          < set_sum size S1)%nat as H3.
  { apply (set_sum_lt _ _ _ c0).
    - by apply elem_of_filter.
    - apply subset_size. set_solver.
    - intros y _. apply subseteq_size. set_solver. }
  assert (set_sum (λ clause : Clause, size (clause ∖ {[ negate lit ]})) S2
          ≤ set_sum size S2)%nat as H4.
  { apply set_sum_le. intros y _. apply subseteq_size. set_solver. }
  assert (set_sum size S1 + set_sum size S2 ≤ set_sum size cnf)%nat as H5.
  { rewrite <- set_sum_disj_union.
    - apply set_sum_subseteq. intros c. unfold S1, S2.
      rewrite elem_of_union, !elem_of_filter. naive_solver.
    - intros c [? ?]%elem_of_filter [? ?]%elem_of_filter. naive_solver. }
  lia.
Qed.
End iteration.

(** ** Negation of literals *)

(** C8, as stated, fails on a string with two marks in front:
    [negate] strips one mark, then the other, and does not put them back. *)
Lemma negate_twice_two_marks :
  let l := [NOT; NOT; 65%N] in
  negate (negate l) ≠ l ∧ ident (negate l) ≠ ident l ∧
  polarity (negate l) ≠ negb (polarity l).
Proof. by vm_compute. Qed.

(** C8 (amended): on every literal whose identifier does not start with
    the negation mark, [negate] is its own inverse, keeps the identifier and
    flips the polarity. *)
Theorem negate_involutive (l : Lit) :
  wf_lit l →
  negate (negate l) = l ∧ ident (negate l) = ident l ∧
  polarity (negate l) = negb (polarity l).
Proof.
  intros Hwf. split_and!.
  - by apply negate_negate.
  - by apply ident_negate.
  - by apply polarity_negate.
Qed.

Lemma negate_involutive_witness :
  wf_lit (negate A) ∧
  negate (negate (negate A)) = negate A ∧
  ident (negate (negate A)) = ident (negate A) ∧
  polarity (negate (negate A)) = negb (polarity (negate A)).
Proof.
  split; [reflexivity|]. apply (negate_involutive (negate A)). reflexivity.
Defined.

(** ** Pure literals *)

(** C7: on a formula whose literals are well formed, the result of
    [find_pure_literals] holds exactly the literals that occur in some clause
    and whose negation occurs in none. *)
Theorem find_pure_literals_spec (cnf : Formula) (l : Lit) :
  wf_formula cnf →
  l ∈ find_pure_literals cnf ↔ occurs cnf l ∧ ¬ occurs cnf (negate l).
Proof.
  intros Hwf. rewrite elem_of_find_pure_literals. split.
  - intros [(Hocc & Hs & Hneg)|(x & -> & Hocc & Hneg)].
    + split; [done|]. by rewrite (negate_unmarked l Hs).
    + split; [done|]. rewrite negate_marked. intros Hx. apply Hneg.
      split; [done|]. destruct Hocc as (clause & Hc & Hin).
      apply (proj1 (wf_lit_marked x)). by apply (Hwf clause Hc).
  - intros [Hocc Hneg]. destruct (startswith_not l) eqn:E.
    + right. apply startswith_not_true in E. exists (tail1 l).
      split_and!; [done..|]. intros [Hx _]. apply Hneg.
      by rewrite E, negate_marked.
    + left. split_and!; [done..|]. by rewrite <- (negate_unmarked l E).
Qed.

Lemma wf_formula_simple_sat : wf_formula simple_sat.
Proof.
  intros clause Hc lit Hlit.
  apply elem_of_union in Hc as [->%elem_of_singleton| ->%elem_of_singleton].
  - apply elem_of_union in Hlit
      as [->%elem_of_singleton| ->%elem_of_singleton]; reflexivity.
  - apply elem_of_singleton in Hlit as ->. reflexivity.
Qed.

Lemma find_pure_literals_spec_witness :
  wf_formula simple_sat ∧
  (B ∈ find_pure_literals simple_sat ↔
     occurs simple_sat B ∧ ¬ occurs simple_sat (negate B)).
Proof.
  split; [exact wf_formula_simple_sat|].
  apply (find_pure_literals_spec _ B wf_formula_simple_sat).
Defined.

(** ** The example 'Trivial UNSAT' *)

Section runs.
Context {order : IterOrder}.

Lemma while_loop_Return (fuel : nat) (max_steps : Z) (cnf : Formula)
    (steps : Z) (result : option bool) :
  loop_body max_steps cnf steps = Return result →
  while_loop (S fuel) max_steps cnf steps = Done result steps.
Proof. simpl. by intros ->. Qed.

Lemma while_loop_Continue (fuel : nat) (max_steps : Z) (cnf : Formula) (steps : Z)
    (cnf' : Formula) (steps' : Z) :
  loop_body max_steps cnf steps = Continue cnf' steps' →
  while_loop (S fuel) max_steps cnf steps =
    while_loop fuel max_steps cnf' steps'.
Proof. simpl. by intros ->. Qed.

Lemma unit_clauses_trivial_unsat :
  unit_clauses trivial_unsat = {[ A; negate A ]}.
Proof.
  apply set_eq. intros l. rewrite elem_of_unit_clauses. unfold trivial_unsat.
  rewrite !elem_of_union, !elem_of_singleton. split.
  - intros [E|E]; [left|right]; apply (inj singleton) in E; done.
  - intros [->| ->]; [by left|by right].
Qed.

(** C1: the code does not return UNSAT on [{{A}, {not A}}]. Both clauses
    are unit clauses, [unit_propagate] drops each of them because it holds a
    unit literal, and the next iteration finds no clause left: the call
    returns [True] after one step, whatever the iteration order. *)
Theorem davis_putnam_trivial_unsat :
  davis_putnam trivial_unsat MAX_STEPS = Done SAT 1.
Proof.
  unfold davis_putnam.
  rewrite (while_loop_Continue _ _ _ _ ∅ 1).
  - replace (Z.to_nat MAX_STEPS) with (S (Z.to_nat 9999)) by (unfold MAX_STEPS; lia).
    apply while_loop_Return. reflexivity.
  - unfold loop_body. rewrite unit_clauses_trivial_unsat.
    reflexivity.
Qed.
End runs.

(** ** Termination and the step budget *)

Section budget.
Context {order : IterOrder}.

(** The body never raises [StopIteration]: a literal is chosen only from a
    formula that has a clause and no empty clause. *)
Lemma loop_body_no_Raise (max_steps : Z) (cnf : Formula) (steps : Z) :
  loop_body max_steps cnf steps ≠ Raise.
Proof.
  unfold loop_body. repeat case_decide; try done.
  destruct (choose_literal_is_Some cnf) as [lit ->]; done.
Qed.

(** More fuel does not change a finished run. *)
Lemma while_loop_mono (fuel fuel' : nat) (max_steps : Z) (cnf : Formula)
    (steps : Z) (result : option bool) (n : Z) :
  (fuel ≤ fuel')%nat →
  while_loop fuel max_steps cnf steps = Done result n →
  while_loop fuel' max_steps cnf steps = Done result n.
Proof.
  revert fuel' cnf steps.
  induction fuel as [|fuel IH]; intros fuel' cnf steps Hle; [done|].
  destruct fuel' as [|fuel']; [lia|]. simpl.
  destruct (loop_body max_steps cnf steps); [done| |done].
  apply IH. lia.
Qed.

(** With fuel for the remaining budget the loop returns, and the counter
    stays within the budget. *)
Lemma while_loop_returns (fuel : nat) (max_steps : Z) (cnf : Formula)
    (steps : Z) :
  (Z.to_nat (max_steps - steps) < fuel)%nat →
  ∃ result n, while_loop fuel max_steps cnf steps = Done result n ∧
    steps ≤ n ∧ n ≤ Z.max steps max_steps.
Proof.
  revert cnf steps.
  induction fuel as [|fuel IH]; intros cnf steps Hfuel; [lia|]. simpl.
  destruct (loop_body max_steps cnf steps) as [result|cnf' steps'|] eqn:E.
  - exists result, steps. split; [done|lia].
  - apply loop_body_Continue in E as (Hlt & -> & _).
    destruct (IH cnf' (steps + 1)) as (result & n & Hrun & ? & ?); [lia|].
    exists result, n. split; [done|lia].
  - by apply loop_body_no_Raise in E.
Qed.

(** C9: for a positive [max_steps] the call returns one of the three
    results, after at most [max_steps] increments of the step counter, and
    the model gives this result for any sufficient amount of fuel. *)
Theorem davis_putnam_total (cnf : Formula) (max_steps : Z) :
  0 < max_steps →
  ∃ result n,
    davis_putnam cnf max_steps = Done result n ∧
    (result = SAT ∨ result = UNSAT ∨ result = ABORTED) ∧
    0 ≤ n ≤ max_steps ∧
    ∀ fuel, (Z.to_nat max_steps < fuel)%nat →
      while_loop fuel max_steps cnf 0 = Done result n.
Proof.
  intros Hpos. unfold davis_putnam.
  destruct (while_loop_returns (S (Z.to_nat max_steps)) max_steps cnf 0)
    as (result & n & Hrun & ? & ?).
  { rewrite Z.sub_0_r. lia. }
  exists result, n. split_and!; [done| |lia|lia|].
  - destruct result as [[]|]; auto.
  - intros fuel Hfuel. apply (while_loop_mono (S (Z.to_nat max_steps))); [lia|done].
Qed.

(** The empty clause survives pure-literal elimination and unit
    propagation. *)
Lemma empty_clause_drop_pure (cnf : Formula) (pure_literals : Clause) :
  ∅ ∈ cnf → ∅ ∈ drop_pure cnf pure_literals.
Proof.
  intros Hin. apply elem_of_filter. split; [|done].
  intros lit _. apply not_elem_of_empty.
Qed.

Lemma empty_clause_unit_propagate (cnf : Formula) (unit_literals : Clause) :
  ∅ ∈ cnf → ∅ ∈ unit_propagate cnf unit_literals.
Proof.
  intros Hin. apply elem_of_unit_propagate. exists ∅.
  split_and!; [done|set_solver|].
  apply set_eq. intros x. rewrite elem_of_filter. set_solver.
Qed.

Lemma while_loop_empty_clause (fuel : nat) (max_steps : Z) (cnf : Formula)
    (steps : Z) :
  ∅ ∈ cnf →
  (Z.to_nat (max_steps - steps) < fuel)%nat →
  ∃ result n, while_loop fuel max_steps cnf steps = Done result n ∧
    result ≠ SAT ∧
    (steps + Z.of_nat (size cnf) ≤ max_steps → result = UNSAT).
Proof.
  revert cnf steps.
  induction fuel as [|fuel IH]; intros cnf steps Hemp Hfuel; [lia|].
  assert (0 < size cnf)%nat as Hsz.
  { apply Nat.neq_0_lt_0, size_non_empty_iff. set_solver. }
  simpl. destruct (loop_body max_steps cnf steps) as [result|cnf' steps'|] eqn:E.
  - exists result, steps. split; [done|]. revert E. unfold loop_body.
    repeat case_decide; try done.
    + intros [= <-]. split; [done|lia].
    + by intros [= <-].
  - apply loop_body_Continue in E
      as (Hlt & -> & [[Hp ->]|[(_ & Hu & ->)|[(_ & _ & Hno & _) _]]]);
      [| |done].
    + pose proof (drop_pure_size cnf Hp).
      destruct (IH (drop_pure cnf (find_pure_literals cnf)) (steps + 1))
        as (result & n & Hrun & ? & Hres);
        [by apply empty_clause_drop_pure|lia|].
      exists result, n. split_and!; [done..|]. intros ?. apply Hres. lia.
    + pose proof (unit_propagate_size cnf Hu).
      destruct (IH (unit_propagate cnf (unit_clauses cnf)) (steps + 1))
        as (result & n & Hrun & ? & Hres);
        [by apply empty_clause_unit_propagate|lia|].
      exists result, n. split_and!; [done..|]. intros ?. apply Hres. lia.
  - by apply loop_body_no_Raise in E.
Qed.

(** C2, as stated, fails when the budget runs out first: with
    [max_steps = 1] the pure literal [A] uses up the only step. *)
Lemma davis_putnam_empty_clause_aborted :
  let cnf : Formula := {[ ∅; {[ A ]} ]} in
  ∅ ∈ cnf ∧ @davis_putnam elements_order cnf 1 = Done ABORTED 1.
Proof. split; compute_done. Qed.

(** C2 (amended): on a formula that holds the empty clause the call never
    returns SAT, and it returns UNSAT whenever [max_steps] is at least the
    number of clauses. *)
Theorem davis_putnam_empty_clause (cnf : Formula) (max_steps : Z) :
  ∅ ∈ cnf →
  ∃ result n, davis_putnam cnf max_steps = Done result n ∧
    result ≠ SAT ∧ (Z.of_nat (size cnf) ≤ max_steps → result = UNSAT).
Proof.
  intros Hemp. unfold davis_putnam.
  destruct (while_loop_empty_clause (S (Z.to_nat max_steps)) max_steps cnf 0)
    as (result & n & Hrun & ? & Hres); [done|rewrite Z.sub_0_r; lia|].
  exists result, n. split_and!; [done..|]. intros ?. apply Hres. lia.
Qed.
End budget.

Lemma davis_putnam_total_witness :
  0 < 3 ∧
  ∃ result n,
    @davis_putnam elements_order trivial_unsat 3 = Done result n ∧
    (result = SAT ∨ result = UNSAT ∨ result = ABORTED) ∧
    0 ≤ n ≤ 3 ∧
    ∀ fuel, (Z.to_nat 3 < fuel)%nat →
      @while_loop elements_order fuel 3 trivial_unsat 0 = Done result n.
Proof.
  split; [lia|]. apply (@davis_putnam_total elements_order trivial_unsat 3). lia.
Defined.

Lemma davis_putnam_empty_clause_witness :
  let cnf : Formula := {[ ∅; {[ A ]} ]} in
  ∅ ∈ cnf ∧
  ∃ result n, @davis_putnam elements_order cnf 5 = Done result n ∧
    result ≠ SAT ∧ (Z.of_nat (size cnf) ≤ 5 → result = UNSAT).
Proof.
  assert (∅ ∈ ({[ ∅; {[ A ]} ]} : Formula)) as Hin.
  { apply elem_of_union. left. by apply elem_of_singleton. }
  split; [exact Hin|].
  apply (@davis_putnam_empty_clause elements_order _ 5 Hin).
Defined.

(** ** Clauses only lose literals *)

Section subclauses.
Context {order : IterOrder}.

Lemma loop_body_subclause (max_steps : Z) (cnf : Formula) (steps : Z)
    (cnf' : Formula) (steps' : Z) :
  loop_body max_steps cnf steps = Continue cnf' steps' →
  ∀ c, c ∈ cnf' → ∃ c0, c0 ∈ cnf ∧ c ⊆ c0.
Proof.
  intros (_ & _ & [[_ ->]|[(_ & _ & ->)|(_ & lit & _ & ->)]])%loop_body_Continue c.
  - intros [_ Hc]%elem_of_filter. by exists c.
  - intros (c0 & Hc0 & _ & ->)%elem_of_unit_propagate. exists c0.
    split; [done|]. intros x. rewrite elem_of_filter. naive_solver.
  - unfold eliminate. rewrite elem_of_union, !elem_of_resolve_literal.
    intros [(c0 & Hc0 & _ & ->)|(c0 & Hc0 & _ & ->)];
      exists c0; (split; [done|]); set_solver.
Qed.

(** C10: at the start of every iteration of a call, each clause of the
    working formula is a subset of some clause of the input. *)
Theorem reaches_subclause (max_steps : Z) (cnf0 cnf : Formula) (steps : Z) :
  reaches max_steps cnf0 cnf steps →
  ∀ c, c ∈ cnf → ∃ c0, c0 ∈ cnf0 ∧ c ⊆ c0.
Proof.
  induction 1 as [|cnf steps cnf' steps' _ IH Hbody]; intros c Hc.
  - by exists c.
  - destruct (loop_body_subclause _ _ _ _ _ Hbody c Hc) as (c1 & Hc1 & Hsub).
    destruct (IH c1 Hc1) as (c0 & Hc0 & Hsub').
    exists c0. split; [done|]. by transitivity c1.
Qed.
End subclauses.

Lemma reaches_subclause_witness :
  let cnf : Formula := {[ {[ negate A ]} ]} in
  @reaches elements_order MAX_STEPS simple_sat cnf 1 ∧
  {[ negate A ]} ∈ cnf ∧
  ∃ c0, c0 ∈ simple_sat ∧ {[ negate A ]} ⊆ c0.
Proof.
  assert (@reaches elements_order MAX_STEPS simple_sat {[ {[ negate A ]} ]} 1)
    as Hr.
  { apply (reaches_next _ _ simple_sat 0); [apply reaches_start|].
    compute_done. }
  assert ({[ negate A ]} ∈ ({[ {[ negate A ]} ]} : Formula)) as Hin
    by (by apply elem_of_singleton).
  split; [exact Hr|]. split; [exact Hin|].
  apply (@reaches_subclause elements_order _ _ _ _ Hr _ Hin).
Defined.

(** ** The literal-elimination step *)

Lemma elem_of_ne_empty (cnf : Formula) (c : Clause) : c ∈ cnf → cnf ≠ ∅.
Proof. intros Hc ->. by apply not_elem_of_empty in Hc. Qed.

Lemma elim_runs_tautology : @elim_runs elements_order tautology.
Proof.
  split_and!; [compute_done..|].
  apply (elem_of_ne_empty _ {[ A; negate A ]}). compute_done.
Qed.

Lemma elim_runs_subsumed : @elim_runs elements_order subsumed.
Proof.
  split_and!; [compute_done..|].
  apply (elem_of_ne_empty _ {[ A; B ]}). compute_done.
Qed.

Section elimination.
Context {order : IterOrder}.

Lemma eliminate_ne (cnf : Formula) (lit : Lit) :
  occurs cnf lit → eliminate cnf lit ≠ cnf.
Proof.
  intros (c0 & Hc0 & Hlit) Heq.
  assert (∀ c, c ∈ cnf → lit ∈ c → negate lit ∈ c → False) as Hboth.
  { intros c Hc H1 H2. rewrite <- Heq in Hc. unfold eliminate in Hc.
    rewrite elem_of_union, !elem_of_resolve_literal in Hc.
    destruct Hc as [(c' & _ & _ & ->)|(c' & _ & _ & ->)]; set_solver. }
  pose proof Hc0 as Hc0'. rewrite <- Heq in Hc0'. unfold eliminate in Hc0'.
  rewrite elem_of_union, !elem_of_resolve_literal in Hc0'.
  destruct Hc0' as [(c' & _ & _ & ->)|(c' & Hc' & Hneg & ->)]; [set_solver|].
  apply (Hboth c' Hc'); [set_solver|done].
Qed.

(** C3 (amended): the formula after the literal-elimination step differs
    from the one before it; and when no clause holds both the chosen literal
    and its negation, no literal on the chosen identifier is left. *)
Theorem eliminate_removes_ident (cnf : Formula) (lit : Lit) :
  elim_runs cnf →
  choose_literal cnf = Some lit →
  eliminate cnf lit ≠ cnf ∧
  ((∀ clause, clause ∈ cnf → lit ∈ clause → negate lit ∉ clause) →
   ∀ c x, c ∈ eliminate cnf lit → x ∈ c → ident x ≠ ident lit).
Proof.
  intros (Hpure & _) Hlit. apply choose_literal_occurs in Hlit.
  split; [by apply eliminate_ne|].
  intros Htaut c x Hc Hx Hid.
  pose proof (find_pure_literals_empty_wf cnf Hpure) as Hwf.
  destruct Hlit as (c0 & Hc0 & Hlit).
  pose proof (Hwf c0 Hc0 lit Hlit) as Hwf_lit.
  unfold eliminate in Hc.
  rewrite elem_of_union, !elem_of_resolve_literal in Hc.
  destruct Hc as [(c' & Hc' & Hin & ->)|(c' & Hc' & Hin & ->)];
    apply elem_of_difference in Hx as [Hx Hne];
    rewrite elem_of_singleton in Hne;
    pose proof (Hwf c' Hc' x Hx) as Hwf_x;
    destruct (same_ident lit x Hwf_lit Hwf_x Hid) as [->| ->];
    try done; by apply (Htaut c' Hc').
Qed.
End elimination.

(** C3, as stated, fails on a clause that holds a literal and its
    negation: each of the two resolvents keeps one of them. *)
Lemma eliminate_keeps_ident_tautology :
  @elim_runs elements_order tautology ∧
  @choose_literal elements_order tautology = Some (negate A) ∧
  ¬ (∀ c x, c ∈ eliminate tautology (negate A) → x ∈ c →
       ident x ≠ ident (negate A)).
Proof.
  split; [exact elim_runs_tautology|]. split; [compute_done|].
  intros Hno. apply (Hno {[ negate A ]} (negate A)); compute_done.
Qed.

Lemma eliminate_removes_ident_witness :
  @elim_runs elements_order subsumed ∧
  @choose_literal elements_order subsumed = Some (negate C) ∧
  set_Forall (λ clause : Clause,
    negate C ∈ clause → negate (negate C) ∉ clause) subsumed ∧
  eliminate subsumed (negate C) ≠ subsumed ∧
  ∀ c x, c ∈ eliminate subsumed (negate C) → x ∈ c →
    ident x ≠ ident (negate C).
Proof.
  assert (@choose_literal elements_order subsumed = Some (negate C)) as Hc
    by compute_done.
  assert (set_Forall (λ clause : Clause,
    negate C ∈ clause → negate (negate C) ∉ clause) subsumed) as Hno
    by compute_done.
  split; [exact elim_runs_subsumed|]. split; [exact Hc|]. split; [exact Hno|].
  destruct (@eliminate_removes_ident elements_order subsumed (negate C)
              elim_runs_subsumed Hc) as [Hne Hid].
  split; [exact Hne|]. exact (Hid Hno).
Defined.

(** ** Shrinking *)

Section shrinking.
Context {order : IterOrder}.

(** C4 (amended): an iteration that goes on to the next one leaves fewer
    clauses or fewer literal occurrences, provided that, when it is a
    literal-elimination step, no clause holds both the chosen literal and
    its negation. *)
Theorem loop_body_shrinks (max_steps : Z) (cnf : Formula) (steps : Z)
    (cnf' : Formula) (steps' : Z) :
  loop_body max_steps cnf steps = Continue cnf' steps' →
  (∀ lit, elim_runs cnf → choose_literal cnf = Some lit →
     ∀ clause, clause ∈ cnf → lit ∈ clause → negate lit ∉ clause) →
  (clause_count cnf' < clause_count cnf)%nat ∨
  (literal_count cnf' < literal_count cnf)%nat.
Proof.
  intros (_ & _ & [[Hp ->]|[(_ & Hu & ->)|(Hruns & lit & Hlit & ->)]])%loop_body_Continue
    Htaut.
  - left. by apply drop_pure_size.
  - left. by apply unit_propagate_size.
  - right. apply eliminate_literal_count.
    + by apply choose_literal_occurs.
    + by apply Htaut.
Qed.
End shrinking.

(** C4, as stated, fails on a clause that holds a literal and its
    negation: the step turns one clause of two literals into two clauses of
    one literal each. *)
Lemma loop_body_grows_tautology :
  let cnf' : Formula := {[ {[ A ]}; {[ negate A ]} ]} in
  @loop_body elements_order MAX_STEPS tautology 0 = Continue cnf' 1 ∧
  ¬ ((clause_count cnf' < clause_count tautology)%nat ∨
     (literal_count cnf' < literal_count tautology)%nat).
Proof.
  split; [compute_done|].
  replace (clause_count {[ {[ A ]}; {[ negate A ]} ]}) with 2%nat by compute_done.
  replace (clause_count tautology) with 1%nat by compute_done.
  replace (literal_count {[ {[ A ]}; {[ negate A ]} ]}) with 2%nat by compute_done.
  replace (literal_count tautology) with 2%nat by compute_done.
  lia.
Qed.

Lemma loop_body_shrinks_witness :
  let cnf' : Formula := {[ {[ negate B ]}; {[ A; B ]} ]} in
  @loop_body elements_order MAX_STEPS subsumed 0 = Continue cnf' 1 ∧
  (@elim_runs elements_order subsumed →
   set_Forall (λ clause : Clause,
     negate C ∈ clause → negate (negate C) ∉ clause) subsumed) ∧
  ((clause_count cnf' < clause_count subsumed)%nat ∨
   (literal_count cnf' < literal_count subsumed)%nat).
Proof.
  assert (@loop_body elements_order MAX_STEPS subsumed 0
          = Continue {[ {[ negate B ]}; {[ A; B ]} ]} 1) as Hb by compute_done.
  assert (set_Forall (λ clause : Clause,
    negate C ∈ clause → negate (negate C) ∉ clause) subsumed) as Hno
    by compute_done.
  split; [exact Hb|]. split; [intros _; exact Hno|].
  apply (@loop_body_shrinks elements_order _ _ _ _ _ Hb).
  intros lit _ Hlit.
  assert (@choose_literal elements_order subsumed = Some (negate C)) as Hc
    by compute_done.
  rewrite Hc in Hlit. injection Hlit as <-. exact Hno.
Defined.

(** ** Clauses without the chosen literal *)

(** C5 (amended): a clause that holds neither the chosen literal nor its
    negation is in [pos | neg] exactly when the formula holds that clause with
    the literal, or with its negation, added. Such a clause of the input is
    dropped unless one of these larger clauses is in the input too. *)
Theorem eliminate_without_literal (cnf : Formula) (lit : Lit) (clause : Clause) :
  lit ∉ clause → negate lit ∉ clause →
  clause ∈ eliminate cnf lit ↔
    {[ lit ]} ∪ clause ∈ cnf ∨ {[ negate lit ]} ∪ clause ∈ cnf.
Proof.
  intros Hl Hn. unfold eliminate.
  rewrite elem_of_union, !elem_of_resolve_literal.
  assert (∀ (x : Lit) (c : Clause), x ∈ c → {[ x ]} ∪ c ∖ {[ x ]} = c) as Hadd.
  { intros x c Hx. apply set_eq. intros y.
    rewrite elem_of_union, elem_of_difference, elem_of_singleton.
    destruct (decide (y = x)); naive_solver. }
  split.
  - intros [(c & Hc & Hin & ->)|(c & Hc & Hin & ->)];
      [left|right]; by rewrite Hadd.
  - intros [Hc|Hc]; [left|right]; eexists; (split; [exact Hc|]);
      (split; [set_solver|]); set_solver.
Qed.

(** C5, as stated, fails when the formula also holds the clause with the
    negation of the chosen literal added: [{A, B}] holds neither [not C]
    nor [C], and it comes back as [{A, B, C}] without [C]. *)
Lemma eliminate_keeps_clause_subsumed :
  let clause : Clause := {[ A; B ]} in
  @elim_runs elements_order subsumed ∧
  @choose_literal elements_order subsumed = Some (negate C) ∧
  clause ∈ subsumed ∧ (negate C ∉ clause) ∧ (negate (negate C) ∉ clause) ∧
  clause ∈ eliminate subsumed (negate C).
Proof. split; [exact elim_runs_subsumed|]. split_and!; compute_done. Qed.

Lemma eliminate_without_literal_witness :
  let clause : Clause := {[ negate A; negate B ]} in
  (negate C ∉ clause) ∧ (negate (negate C) ∉ clause) ∧
  (clause ∈ eliminate subsumed (negate C) ↔
     {[ negate C ]} ∪ clause ∈ subsumed ∨
     {[ negate (negate C) ]} ∪ clause ∈ subsumed).
Proof.
  assert (negate C ∉ ({[ negate A; negate B ]} : Clause)) as H1 by compute_done.
  assert (negate (negate C) ∉ ({[ negate A; negate B ]} : Clause)) as H2
    by compute_done.
  split; [exact H1|]. split; [exact H2|].
  apply (eliminate_without_literal subsumed (negate C) _ H1 H2).
Defined.

(** ** Unit propagation and truth assignments *)

Lemma sat_lit_negate (v : Lit → bool) (lit : Lit) :
  wf_lit lit → sat_lit v (negate lit) = negb (sat_lit v lit).
Proof.
  intros Hwf. unfold sat_lit at 2. destruct (startswith_not lit) eqn:E.
  - apply startswith_not_true in E. rewrite E in Hwf.
    apply wf_lit_marked in Hwf. rewrite E at 1. rewrite negate_marked.
    unfold sat_lit. rewrite Hwf. by rewrite negb_involutive.
  - rewrite (negate_unmarked lit E). unfold sat_lit, tail1; simpl.
    by rewrite drop_0.
Qed.

(** C6 (amended): on a formula of well-formed literals, the formula
    returned by [unit_propagate], taken together with the unit literals, is
    satisfied by exactly the truth assignments that satisfy the input formula
    together with the unit literals. *)
Theorem unit_propagate_equivalent (cnf : Formula) (unit_literals : Clause)
    (v : Lit → bool) :
  wf_formula cnf →
  sat_formula v (unit_propagate cnf unit_literals) ∧ sat_units v unit_literals ↔
  sat_formula v cnf ∧ sat_units v unit_literals.
Proof.
  intros Hwf. split; intros [Hsat Hunits]; (split; [|done]).
  - intros clause Hc.
    destruct (decide (clause ∩ unit_literals = ∅)) as [Hd|Hd].
    + destruct (Hsat (filter (λ lit, negate lit ∉ unit_literals) clause))
        as (lit & Hlit & Hv).
      { apply elem_of_unit_propagate. by exists clause. }
      exists lit. split; [|done]. by apply elem_of_filter in Hlit as [_ ?].
    + apply set_choose_L in Hd as [lit [Hlit Hu]%elem_of_intersection].
      exists lit. split; [done|]. by apply Hunits.
  - intros c (clause & Hc & Hd & ->)%elem_of_unit_propagate.
    destruct (Hsat clause Hc) as (lit & Hlit & Hv).
    exists lit. split; [|done]. apply elem_of_filter. split; [|done].
    intros Hneg. apply Hunits in Hneg.
    rewrite sat_lit_negate, Hv in Hneg by by apply (Hwf clause Hc). done.
Qed.

(** C6, as stated, fails because the result does not keep the unit
    literals: from [{{A}}] with the unit [A] nothing is left, which every
    assignment satisfies, also one that makes [A] false. *)
Lemma unit_propagate_forgets_units :
  let cnf : Formula := {[ {[ A ]} ]} in
  let unit_literals : Clause := {[ A ]} in
  let v : Lit → bool := λ _, false in
  (∀ lit, lit ∈ unit_literals → negate lit ∉ unit_literals) ∧
  sat_formula v (unit_propagate cnf unit_literals) ∧
  ¬ (sat_formula v cnf ∧ sat_units v unit_literals).
Proof.
  split_and!.
  - intros lit ->%elem_of_singleton. compute_done.
  - replace (unit_propagate {[ {[ A ]} ]} {[ A ]}) with (∅ : Formula)
      by compute_done.
    intros c Hc. by apply not_elem_of_empty in Hc.
  - intros [_ Hu]. specialize (Hu A). simpl in Hu.
    discriminate Hu. by apply elem_of_singleton.
Qed.

Lemma unit_propagate_equivalent_witness :
  let v : Lit → bool := λ _, false in
  wf_formula simple_sat ∧
  (sat_formula v (unit_propagate simple_sat {[ negate A ]}) ∧
     sat_units v {[ negate A ]} ↔
   sat_formula v simple_sat ∧ sat_units v {[ negate A ]}).
Proof.
  split; [exact wf_formula_simple_sat|].
  apply (unit_propagate_equivalent _ {[ negate A ]} (λ _, false)
           wf_formula_simple_sat).
Defined.

(** ** Further properties of the helpers *)

(** X1: [negate] has no fixed point: it changes the length by exactly one, so
    a literal and its negation are always two different strings. *)
Theorem negate_changes_length (l : Lit) :
  negate l ≠ l ∧
  (length (negate l) = S (length l) ∨ S (length (negate l)) = length l).
Proof. split; [apply negate_ne|apply negate_length]. Qed.

(** X2: [resolve_literal] gives exactly the clauses without the literal that
    become a clause of the formula when the literal is added. *)
Theorem resolve_literal_spec (cnf : Formula) (literal : Lit) (c : Clause) :
  c ∈ resolve_literal cnf literal ↔ (literal ∉ c) ∧ {[ literal ]} ∪ c ∈ cnf.
Proof.
  rewrite elem_of_resolve_literal. split.
  - intros (clause & Hc & Hin & ->). split; [set_solver|].
    replace ({[ literal ]} ∪ clause ∖ {[ literal ]}) with clause; [done|].
    apply set_eq. intros y.
    rewrite elem_of_union, elem_of_difference, elem_of_singleton.
    destruct (decide (y = literal)); naive_solver.
  - intros [Hno Hc]. exists ({[ literal ]} ∪ c).
    split_and!; [done|set_solver|set_solver].
Qed.

(** X3: after [unit_propagate] no clause holds a unit literal or the negation
    of one. *)
Theorem unit_propagate_clears_units (cnf : Formula) (unit_literals : Clause)
    (c : Clause) (lit : Lit) :
  c ∈ unit_propagate cnf unit_literals → lit ∈ c →
  (lit ∉ unit_literals) ∧ (negate lit ∉ unit_literals).
Proof.
  intros (clause & _ & Hd & ->)%elem_of_unit_propagate
    [Hneg Hlit]%elem_of_filter.
  split; [|done]. intros Hu.
  assert (lit ∈ clause ∩ unit_literals) as Hin by by apply elem_of_intersection.
  rewrite Hd in Hin. by apply not_elem_of_empty in Hin.
Qed.

Lemma unit_propagate_clears_units_witness :
  ({[ B ]} : Clause) ∈ unit_propagate {[ {[ A; B ]}; {[ negate A ]} ]}
                                      {[ negate A ]} ∧
  B ∈ ({[ B ]} : Clause) ∧
  (B ∉ ({[ negate A ]} : Clause)) ∧ (negate B ∉ ({[ negate A ]} : Clause)).
Proof.
  assert (({[ B ]} : Clause) ∈ unit_propagate {[ {[ A; B ]}; {[ negate A ]} ]}
                                              {[ negate A ]}) as H1
    by compute_done.
  assert (B ∈ ({[ B ]} : Clause)) as H2 by compute_done.
  split; [exact H1|]. split; [exact H2|].
  apply (unit_propagate_clears_units _ _ _ _ H1 H2).
Defined.

(** X4: with no unit literal [unit_propagate] returns the formula as it is. *)
Theorem unit_propagate_no_units (cnf : Formula) : unit_propagate cnf ∅ = cnf.
Proof.
  apply set_eq. intros c. rewrite elem_of_unit_propagate. split.
  - intros (clause & Hc & _ & ->).
    replace (filter (λ lit, negate lit ∉ (∅ : Clause)) clause) with clause;
      [done|].
    apply set_eq. intros y. rewrite elem_of_filter. set_solver.
  - intros Hc. exists c. split_and!; [done|set_solver|].
    apply set_eq. intros y. rewrite elem_of_filter. set_solver.
Qed.

(** X5: a string with two marks in front that occurs in the formula is always
    reported pure, whatever else the formula holds. *)
Theorem find_pure_literals_two_marks (cnf : Formula) (x : Lit) :
  occurs cnf (NOT :: NOT :: x) → NOT :: NOT :: x ∈ find_pure_literals cnf.
Proof.
  intros Hocc. apply elem_of_find_pure_literals. right. exists (NOT :: x).
  split_and!; [done..|]. by intros [_ ?].
Qed.

Lemma find_pure_literals_two_marks_witness :
  let cnf : Formula := {[ {[ NOT :: NOT :: A ]}; {[ NOT :: A ]} ]} in
  occurs cnf (NOT :: NOT :: A) ∧ NOT :: NOT :: A ∈ find_pure_literals cnf.
Proof.
  assert (occurs {[ {[ NOT :: NOT :: A ]}; {[ NOT :: A ]} ]} (NOT :: NOT :: A))
    as Hocc.
  { exists {[ NOT :: NOT :: A ]}. split; compute_done. }
  split; [exact Hocc|]. apply (find_pure_literals_two_marks _ A Hocc).
Defined.

(** X6: when there is a pure literal, the pure-literal step keeps a proper
    subset of the clauses, each of them unchanged: at least one clause goes. *)
Theorem drop_pure_strict_subset (cnf : Formula) :
  find_pure_literals cnf ≠ ∅ →
  drop_pure cnf (find_pure_literals cnf) ⊂ cnf.
Proof.
  intros [l Hl]%set_choose_L.
  destruct (find_pure_literals_occurs cnf l Hl) as (clause & Hin & Hlc).
  unfold drop_pure. split.
  - intros c. rewrite elem_of_filter. naive_solver.
  - intros Hsub. specialize (Hsub clause Hin).
    apply elem_of_filter in Hsub as [Hall _]. by apply (Hall l).
Qed.

Lemma drop_pure_strict_subset_witness :
  find_pure_literals simple_sat ≠ ∅ ∧
  @drop_pure simple_sat (find_pure_literals simple_sat) ⊂ simple_sat.
Proof.
  assert (find_pure_literals simple_sat ≠ ∅) as Hne.
  { intros E. assert (B ∈ find_pure_literals simple_sat) as Hin by compute_done.
    rewrite E in Hin. by apply not_elem_of_empty in Hin. }
  split; [exact Hne|]. apply (drop_pure_strict_subset simple_sat Hne).
Defined.

(** ** Further properties of the decision loop *)

Section verdicts.
Context {order : IterOrder}.

(** The three ways in which the body returns. *)
Lemma loop_body_Return (max_steps : Z) (cnf : Formula) (steps : Z)
    (result : option bool) :
  loop_body max_steps cnf steps = Return result →
  (result = ABORTED ∧ max_steps ≤ steps) ∨
  (result = UNSAT ∧ steps < max_steps ∧ find_pure_literals cnf = ∅ ∧
     unit_clauses cnf = ∅ ∧ ∅ ∈ cnf) ∨
  (result = SAT ∧ steps < max_steps ∧ cnf = ∅).
Proof.
  unfold loop_body. repeat case_decide; try done.
  - intros [= <-]. by left.
  - intros [= <-]. right; left. split_and!; [done|lia|done..].
  - intros [= <-]. right; right. split_and!; [done|lia|done].
  - by destruct (choose_literal cnf).
Qed.

Lemma while_loop_reaches (fuel : nat) (max_steps : Z) (cnf0 cnf : Formula)
    (steps : Z) (result : option bool) (n : Z) :
  reaches max_steps cnf0 cnf steps →
  while_loop fuel max_steps cnf steps = Done result n →
  ∃ cnf', reaches max_steps cnf0 cnf' n ∧
          loop_body max_steps cnf' n = Return result.
Proof.
  revert cnf steps. induction fuel as [|fuel IH]; intros cnf steps Hr; [done|].
  simpl. destruct (loop_body max_steps cnf steps) as [r|cnf' steps'|] eqn:E;
    [|apply IH; by eapply reaches_next|done].
  intros [= <- <-]. by exists cnf.
Qed.

(** X7: every verdict is read off the formula the loop has reached: SAT from
    the empty formula, UNSAT from a formula that holds the empty clause and
    has no pure literal and no unit clause left, both within the budget;
    ABORTED from a counter that has reached the budget. *)
Theorem davis_putnam_verdict (cnf0 : Formula) (max_steps : Z)
    (result : option bool) (n : Z) :
  davis_putnam cnf0 max_steps = Done result n →
  ∃ cnf, reaches max_steps cnf0 cnf n ∧
    match result with
    | Some true => cnf = ∅ ∧ n < max_steps
    | Some false => ∅ ∈ cnf ∧ find_pure_literals cnf = ∅ ∧
                    unit_clauses cnf = ∅ ∧ n < max_steps
    | None => max_steps ≤ n
    end.
Proof.
  intros Hrun. unfold davis_putnam in Hrun.
  apply (while_loop_reaches _ _ cnf0) in Hrun as (cnf & Hr & Hbody);
    [|apply reaches_start].
  exists cnf. split; [done|].
  apply loop_body_Return in Hbody
    as [[-> ?]|[(-> & ? & ? & ? & ?)|(-> & ? & ?)]]; done.
Qed.

(** X8: the call gives up exactly when the counter has reached the budget:
    ABORTED comes with [max_steps] steps (none for a budget below one), a
    verdict with fewer. *)
Theorem davis_putnam_aborted_at_budget (cnf : Formula) (max_steps : Z)
    (result : option bool) (n : Z) :
  davis_putnam cnf max_steps = Done result n →
  match result with
  | None => n = Z.max 0 max_steps
  | Some _ => 0 ≤ n < max_steps
  end.
Proof.
  intros Hrun.
  destruct (while_loop_returns (S (Z.to_nat max_steps)) max_steps cnf 0)
    as (result' & n' & Hrun' & ? & ?); [rewrite Z.sub_0_r; lia|].
  unfold davis_putnam in Hrun. rewrite Hrun in Hrun'.
  injection Hrun' as <- <-.
  apply (while_loop_reaches _ _ cnf) in Hrun as (cnf' & _ & Hbody);
    [|apply reaches_start].
  apply loop_body_Return in Hbody
    as [[-> ?]|[(-> & ? & _)|(-> & ? & _)]]; lia.
Qed.

(** X9: a budget below one gives ABORTED at once, for every formula, the
    empty one included. *)
Theorem davis_putnam_no_budget (cnf : Formula) (max_steps : Z) :
  max_steps ≤ 0 → davis_putnam cnf max_steps = Done ABORTED 0.
Proof.
  intros Hle. unfold davis_putnam. apply while_loop_Return.
  unfold loop_body. by rewrite decide_True.
Qed.

Lemma loop_body_unit_step (max_steps : Z) (cnf : Formula) (steps : Z) :
  steps < max_steps → find_pure_literals cnf = ∅ → unit_clauses cnf ≠ ∅ →
  loop_body max_steps cnf steps =
    Continue (unit_propagate cnf (unit_clauses cnf)) (steps + 1).
Proof.
  intros Hlt Hp Hu. unfold loop_body.
  rewrite decide_False by lia. rewrite decide_False by (by intros []).
  by rewrite decide_True.
Qed.

Lemma loop_body_empty (max_steps steps : Z) :
  steps < max_steps → loop_body max_steps ∅ steps = Return SAT.
Proof.
  intros Hlt. unfold loop_body. rewrite decide_False by lia. reflexivity.
Qed.

(** X10: the loss of a conflict between unit clauses, in general: on a formula
    of unit clauses in which every literal has its negation, each clause is
    dropped by the one unit-propagation step, and the call returns SAT though
    no truth assignment satisfies the formula. *)
Theorem davis_putnam_unit_conflict (cnf : Formula) (max_steps : Z) :
  cnf ≠ ∅ →
  (∀ clause, clause ∈ cnf → size clause = 1%nat) →
  find_pure_literals cnf = ∅ →
  2 ≤ max_steps →
  davis_putnam cnf max_steps = Done SAT 1 ∧ ∀ v, ¬ sat_formula v cnf.
Proof.
  intros Hne Hunit Hpure Hmax.
  assert (∀ clause, clause ∈ cnf → ∃ l, clause = {[ l ]} ∧ l ∈ unit_clauses cnf)
    as Hsingle.
  { intros clause Hc. destruct (size_1_elem_of clause (Hunit clause Hc)) as [l Hl].
    apply leibniz_equiv in Hl. subst clause. exists l. split; [done|].
    by apply elem_of_unit_clauses. }
  split.
  - unfold davis_putnam.
    destruct (Z.to_nat max_steps) as [|[|fuel]] eqn:E; [lia..|].
    rewrite (while_loop_Continue _ _ _ _
               (unit_propagate cnf (unit_clauses cnf)) 1).
    + replace (unit_propagate cnf (unit_clauses cnf)) with (∅ : Formula).
      { apply while_loop_Return, loop_body_empty. lia. }
      symmetry. apply set_eq. intros c. rewrite elem_of_unit_propagate.
      split; [|by intros []%not_elem_of_empty].
      intros (clause & Hc & Hd & _). destruct (Hsingle clause Hc) as (l & -> & Hl).
      assert (l ∈ ({[ l ]} : Clause) ∩ unit_clauses cnf) as Hin
        by (apply elem_of_intersection; split; [by apply elem_of_singleton|done]).
      rewrite Hd in Hin. by apply not_elem_of_empty in Hin.
    + apply loop_body_unit_step; [lia|done|].
      apply set_choose_L in Hne as [clause Hc].
      destruct (Hsingle clause Hc) as (l & _ & Hl).
      intros E'. rewrite E' in Hl. by apply not_elem_of_empty in Hl.
  - intros v Hsat.
    assert (∀ l, occurs cnf l → sat_lit v l = true) as Htrue.
    { intros l (clause & Hc & Hl). destruct (Hsingle clause Hc) as (l' & -> & _).
      apply elem_of_singleton in Hl as ->.
      destruct (Hsat _ Hc) as (l & ->%elem_of_singleton & Hv). done. }
    apply set_choose_L in Hne as [clause Hc].
    destruct (Hsingle clause Hc) as (l & -> & _).
    assert (occurs cnf l) as Hocc by (exists {[ l ]}; split; [done|by apply elem_of_singleton]).
    assert (l ∈ find_pure_literals cnf) as Hin;
      [|rewrite Hpure in Hin; by apply not_elem_of_empty in Hin].
    apply elem_of_find_pure_literals.
    pose proof (Htrue l Hocc) as Hl. unfold sat_lit in Hl.
    destruct (startswith_not l) eqn:E.
    + right. apply startswith_not_true in E. exists (tail1 l).
      split_and!; [done..|]. intros [Hx Hs].
      apply Htrue in Hx. unfold sat_lit in Hx. rewrite Hs in Hx.
      rewrite Hx in Hl. done.
    + left. split_and!; [done..|]. intros Hx.
      apply Htrue in Hx. unfold sat_lit, tail1 in Hx. simpl in Hx.
      rewrite drop_0, Hl in Hx. done.
Qed.
End verdicts.

Lemma davis_putnam_verdict_witness :
  @davis_putnam elements_order simple_sat MAX_STEPS = Done SAT 2 ∧
  ∃ cnf, @reaches elements_order MAX_STEPS simple_sat cnf 2 ∧
         cnf = ∅ ∧ 2 < MAX_STEPS.
Proof.
  assert (@davis_putnam elements_order simple_sat MAX_STEPS = Done SAT 2) as Hrun
    by compute_done.
  split; [exact Hrun|].
  apply (@davis_putnam_verdict elements_order _ _ _ _ Hrun).
Defined.

Lemma davis_putnam_aborted_at_budget_witness :
  let cnf : Formula := {[ ∅; {[ A ]} ]} in
  @davis_putnam elements_order cnf 1 = Done ABORTED 1 ∧ 1 = Z.max 0 1.
Proof.
  assert (@davis_putnam elements_order {[ ∅; {[ A ]} ]} 1 = Done ABORTED 1)
    as Hrun by compute_done.
  split; [exact Hrun|].
  apply (@davis_putnam_aborted_at_budget elements_order _ _ _ _ Hrun).
Defined.

Lemma davis_putnam_no_budget_witness :
  0 ≤ 0 ∧ @davis_putnam elements_order ∅ 0 = Done ABORTED 0.
Proof.
  split; [lia|]. apply (@davis_putnam_no_budget elements_order ∅ 0). lia.
Defined.

Lemma davis_putnam_unit_conflict_witness :
  trivial_unsat ≠ ∅ ∧
  set_Forall (λ clause : Clause, size clause = 1%nat) trivial_unsat ∧
  find_pure_literals trivial_unsat = ∅ ∧
  2 ≤ MAX_STEPS ∧
  @davis_putnam elements_order trivial_unsat MAX_STEPS = Done SAT 1 ∧
  ∀ v, ¬ sat_formula v trivial_unsat.
Proof.
  assert (trivial_unsat ≠ ∅) as H1.
  { apply (elem_of_ne_empty _ {[ A ]}). compute_done. }
  assert (set_Forall (λ clause : Clause, size clause = 1%nat) trivial_unsat)
    as H2 by compute_done.
  assert (find_pure_literals trivial_unsat = ∅) as H3 by compute_done.
  assert (2 ≤ MAX_STEPS) as H4 by (unfold MAX_STEPS; lia).
  split; [exact H1|]. split; [exact H2|]. split; [exact H3|].
  split; [exact H4|].
  apply (@davis_putnam_unit_conflict elements_order _ _ H1 H2 H3 H4).
Defined.

(** ** The simplification steps and satisfiability *)

Section models.
Context {order : IterOrder}.

(** X11: unit propagation loses no model: an assignment that satisfies a
    formula of well-formed literals satisfies the formula after the
    unit-propagation step of the loop. *)
Theorem unit_step_keeps_models (cnf : Formula) (v : Lit → bool) :
  wf_formula cnf → sat_formula v cnf →
  sat_formula v (unit_propagate cnf (unit_clauses cnf)).
Proof.
  intros Hwf Hsat c (clause & Hc & _ & ->)%elem_of_unit_propagate.
  destruct (Hsat clause Hc) as (lit & Hlit & Hv).
  exists lit. split; [|done]. apply elem_of_filter. split; [|done].
  intros Hneg%elem_of_unit_clauses.
  destruct (Hsat _ Hneg) as (l & ->%elem_of_singleton & Hv').
  rewrite sat_lit_negate, Hv in Hv' by by apply (Hwf clause Hc). done.
Qed.
End models.

Lemma unit_step_keeps_models_witness :
  let v : Lit → bool := λ _, false in
  let cnf : Formula := {[ {[ negate A ]}; {[ A; negate B ]} ]} in
  wf_formula cnf ∧ sat_formula v cnf ∧
  sat_formula v (unit_propagate cnf (@unit_clauses elements_order cnf)).
Proof.
  assert (wf_formula {[ {[ negate A ]}; {[ A; negate B ]} ]}) as Hwf.
  { intros clause Hc lit Hlit.
    apply elem_of_union in Hc as [->%elem_of_singleton| ->%elem_of_singleton].
    - apply elem_of_singleton in Hlit as ->. reflexivity.
    - apply elem_of_union in Hlit
        as [->%elem_of_singleton| ->%elem_of_singleton]; reflexivity. }
  assert (sat_formula (λ _, false) {[ {[ negate A ]}; {[ A; negate B ]} ]})
    as Hsat.
  { intros clause Hc.
    apply elem_of_union in Hc as [->%elem_of_singleton| ->%elem_of_singleton].
    - exists (negate A). split; compute_done.
    - exists (negate B). split; compute_done. }
  split; [exact Hwf|]. split; [exact Hsat|].
  apply (@unit_step_keeps_models elements_order _ _ Hwf Hsat).
Defined.

(** X12: the pure-literal rule is sound and complete on well-formed literals:
    the formula left by the pure-literal step is satisfiable exactly when the
    formula before it is. *)
Theorem drop_pure_equisatisfiable (cnf : Formula) :
  wf_formula cnf →
  (∃ v, sat_formula v (drop_pure cnf (find_pure_literals cnf))) ↔
  (∃ v, sat_formula v cnf).
Proof.
  intros Hwf. set (P := find_pure_literals cnf). split; intros [v Hsat].
  - assert (∀ x, x ∈ P → startswith_not x = false → ¬ occurs cnf (NOT :: x))
      as Hpos.
    { intros x [(_ & _ & ?)|(y & -> & _)]%elem_of_find_pure_literals Hs;
        [done|]. by rewrite startswith_not_cons, bool_decide_eq_true_2 in Hs. }
    assert (∀ x, NOT :: x ∈ P → startswith_not x = false → ¬ occurs cnf x)
      as Hneg.
    { intros x [(_ & Hs & _)|(y & [= <-] & _ & Hno)]%elem_of_find_pure_literals
        Hx Hocc; [|by apply Hno].
      by rewrite startswith_not_cons, bool_decide_eq_true_2 in Hs. }
    exists (λ x, if decide (x ∈ P) then true
                 else if decide (NOT :: x ∈ P) then false else v x).
    intros clause Hc.
    destruct (decide (set_Forall (λ lit, lit ∉ clause) P)) as [Hall|Hex].
    + destruct (Hsat clause) as (lit & Hlit & Hv);
        [by apply elem_of_filter|].
      exists lit. split; [done|].
      pose proof (Hwf clause Hc lit Hlit) as Hwf_lit.
      unfold sat_lit in *. destruct (startswith_not lit) eqn:E.
      * apply startswith_not_true in E. rewrite E in Hwf_lit, Hlit.
        apply wf_lit_marked in Hwf_lit.
        rewrite decide_False; [by case_decide|].
        intros Hin. apply (Hpos _ Hin Hwf_lit). by exists clause.
      * case_decide; [done|]. rewrite decide_False; [done|].
        intros Hin. apply (Hneg _ Hin E). by exists clause.
    + apply not_set_Forall_Exists in Hex as (l & Hl & Hin); [|apply _].
      simpl in Hin. apply dec_stable in Hin.
      exists l. split; [done|].
      pose proof (Hwf clause Hc l Hin) as Hwf_l.
      unfold sat_lit. destruct (startswith_not l) eqn:E.
      * apply startswith_not_true in E. rewrite E in Hwf_l, Hl, Hin.
        apply wf_lit_marked in Hwf_l.
        rewrite decide_False; [by rewrite decide_True|].
        intros Hx. apply (Hpos _ Hx Hwf_l). by exists clause.
      * by rewrite decide_True.
  - exists v. intros clause [_ Hc]%elem_of_filter. by apply Hsat.
Qed.

Lemma drop_pure_equisatisfiable_witness :
  wf_formula simple_sat ∧
  ((∃ v, sat_formula v (drop_pure simple_sat (find_pure_literals simple_sat))) ↔
   (∃ v, sat_formula v simple_sat)).
Proof.
  split; [exact wf_formula_simple_sat|].
  apply (drop_pure_equisatisfiable simple_sat wf_formula_simple_sat).
Defined.

(** ** Rendering *)

#[local] Instance str_le_total : Total str_le.
Proof.
  intros s. unfold str_le.
  induction s as [|a s IH]; intros [|b t]; simpl; auto.
  repeat case_decide; auto; lia.
Qed.

#[local] Instance str_le_trans : Transitive str_le.
Proof.
  intros s. unfold str_le.
  induction s as [|a s IH]; intros [|b t] [|c u]; simpl; auto; try done.
  repeat case_decide; auto; try done; try lia.
  apply IH.
Qed.

#[local] Instance str_le_antisymm : AntiSymm (=) str_le.
Proof.
  intros s. unfold str_le.
  induction s as [|a s IH]; intros [|b t]; simpl; auto; try done.
  repeat case_decide; try done; try lia.
  intros Hst Hts. subst. f_equal. by apply IH.
Qed.

(** [sorted] does not depend on the order in which it is given the
    elements. *)
Lemma sorted_Permutation (xs ys : list Lit) : xs ≡ₚ ys → sorted xs = sorted ys.
Proof.
  intros Hperm. unfold sorted.
  apply (Sorted_unique str_le); try apply Sorted_merge_sort; try apply _.
  by rewrite !merge_sort_Permutation.
Qed.

(** X13: the text of a clause does not depend on the order in which its set
    is iterated: two iteration orders that go through the clauses of a
    formula in the same sequence print the same text. *)
Theorem print_cnf_clause_order (seq1 seq2 : IterSeq) (cnf : Formula) :
  @iter_list seq1 _ _ _ cnf = @iter_list seq2 _ _ _ cnf →
  @print_cnf seq1 cnf = @print_cnf seq2 cnf.
Proof.
  intros Heq. unfold print_cnf. rewrite Heq. f_equal.
  apply list_fmap_ext. intros _ clause _. unfold print_clause.
  do 3 f_equal. apply sorted_Permutation.
  by rewrite !iter_list_perm.
Qed.

(** X14: the empty formula is printed as the empty string. *)
Theorem print_cnf_empty (seq : IterSeq) : @print_cnf seq ∅ = [].
Proof.
  unfold print_cnf.
  pose proof (@iter_list_perm seq _ _ _ (∅ : Formula)) as Hperm.
  rewrite elements_empty in Hperm. apply Permutation_nil_r in Hperm.
  by rewrite Hperm.
Qed.

Lemma print_cnf_clause_order_witness :
  let cnf : Formula := {[ {[ B; A ]} ]} in
  @iter_list elements_seq _ _ _ cnf = @iter_list reverse_seq _ _ _ cnf ∧
  @print_cnf elements_seq cnf = @print_cnf reverse_seq cnf.
Proof.
  assert (@iter_list elements_seq _ _ _ ({[ {[ B; A ]} ]} : Formula)
          = @iter_list reverse_seq _ _ _ ({[ {[ B; A ]} ]} : Formula)) as Heq
    by compute_done.
  split; [exact Heq|].
  apply (print_cnf_clause_order elements_seq reverse_seq _ Heq).
Defined.

(** ** The budget and the iteration order *)

Section budget_mono.
Context {order : IterOrder}.

Lemma loop_body_budget (m m' : Z) (cnf : Formula) (steps : Z) :
  steps < m → m ≤ m' → loop_body m' cnf steps = loop_body m cnf steps.
Proof.
  intros Hlt Hle. unfold loop_body.
  destruct (decide (m' ≤ steps)); [lia|].
  destruct (decide (m ≤ steps)); [lia|]. done.
Qed.

Lemma while_loop_budget_mono (fuel : nat) (m m' : Z) (cnf : Formula)
    (steps : Z) (b : bool) (n : Z) :
  m ≤ m' →
  while_loop fuel m cnf steps = Done (Some b) n →
  while_loop fuel m' cnf steps = Done (Some b) n.
Proof.
  intros Hle. revert cnf steps.
  induction fuel as [|fuel IH]; intros cnf steps; [done|]. simpl.
  destruct (decide (m ≤ steps)) as [Hge|Hlt].
  - unfold loop_body at 1. by destruct (decide (m ≤ steps)).
  - rewrite (loop_body_budget m m') by lia.
    destruct (loop_body m cnf steps); [done|apply IH|done].
Qed.

(** X15: a larger budget never changes a verdict: when the call returns SAT or
    UNSAT within [m] steps, it returns the same, after as many steps, for
    every budget above [m]. *)
Theorem davis_putnam_budget_mono (cnf : Formula) (m m' : Z) (b : bool) (n : Z) :
  m ≤ m' →
  davis_putnam cnf m = Done (Some b) n →
  davis_putnam cnf m' = Done (Some b) n.
Proof.
  intros Hle Hrun. unfold davis_putnam in *.
  apply (while_loop_mono (S (Z.to_nat m))); [lia|].
  by apply (while_loop_budget_mono _ m).
Qed.
End budget_mono.

Lemma davis_putnam_budget_mono_witness :
  2 ≤ MAX_STEPS ∧
  @davis_putnam elements_order trivial_unsat 2 = Done SAT 1 ∧
  @davis_putnam elements_order trivial_unsat MAX_STEPS = Done SAT 1.
Proof.
  assert (2 ≤ MAX_STEPS) as Hle by (unfold MAX_STEPS; lia).
  assert (@davis_putnam elements_order trivial_unsat 2 = Done SAT 1) as Hrun
    by compute_done.
  split; [exact Hle|]. split; [exact Hrun|].
  apply (@davis_putnam_budget_mono elements_order _ _ _ _ _ Hle Hrun).
Defined.

(** X16: the unit literals are the literals [l] whose clause [{l}] is in the
    formula, whatever the iteration order: a set of one element has one
    first element. *)
Theorem unit_clauses_spec (order1 order2 : IterOrder) (cnf : Formula) (l : Lit) :
  (l ∈ @unit_clauses order1 cnf ↔ {[ l ]} ∈ cnf) ∧
  @unit_clauses order1 cnf = @unit_clauses order2 cnf.
Proof.
  split; [apply elem_of_unit_clauses|].
  apply set_eq. intros x. by rewrite !elem_of_unit_clauses.
Qed.

(** X17: the literal-elimination step adds no clause, as long as no clause
    holds both the chosen literal and its negation. *)
Theorem eliminate_clause_count (cnf : Formula) (lit : Lit) :
  (∀ clause, clause ∈ cnf → lit ∈ clause → negate lit ∉ clause) →
  (clause_count (eliminate cnf lit) ≤ clause_count cnf)%nat.
Proof.
  intros Htaut. unfold clause_count, eliminate, resolve_literal.
  set (S1 := filter (λ clause : Clause, lit ∈ clause) cnf).
  set (S2 := filter (λ clause : Clause, negate lit ∈ clause) cnf).
  rewrite size_union_alt.
  pose proof (size_set_map_le (λ clause : Clause, clause ∖ {[ lit ]}) S1).
  pose proof (size_set_map_le (λ clause : Clause, clause ∖ {[ negate lit ]}) S2).
  assert (size S1 + size S2 ≤ size cnf)%nat.
  { rewrite <- size_union.
    - apply subseteq_size. intros c. unfold S1, S2.
      rewrite elem_of_union, !elem_of_filter. naive_solver.
    - intros c [? ?]%elem_of_filter [? ?]%elem_of_filter. naive_solver. }
  pose proof (subseteq_size
    (set_map (λ clause : Clause, clause ∖ {[ negate lit ]}) S2
       ∖ set_map (λ clause : Clause, clause ∖ {[ lit ]}) S1 : Formula)
    (set_map (λ clause : Clause, clause ∖ {[ negate lit ]}) S2)
    ltac:(set_solver)).
  lia.
Qed.

Lemma eliminate_clause_count_witness :
  set_Forall (λ clause : Clause,
    negate C ∈ clause → negate (negate C) ∉ clause) subsumed ∧
  (clause_count (eliminate subsumed (negate C)) ≤ clause_count subsumed)%nat.
Proof.
  assert (set_Forall (λ clause : Clause,
    negate C ∈ clause → negate (negate C) ∉ clause) subsumed) as Hno
    by compute_done.
  split; [exact Hno|]. apply (eliminate_clause_count subsumed (negate C) Hno).
Defined.
